(** * socketConn: the connectivity-checking wrapper around net.Conn

    A shallow embedding of [lib/go/thrift/socket_conn.go].

    - Go pointers to [socketConn] are addresses into a heap of structs,
      [nil] is [None]; [&socketConn{...}] allocates at the end of the heap.
    - A [net.Conn] interface value is [nil], a [*socketConn] (possibly a
      nil pointer of that type), or a connection of some other dynamic
      type; the latter is kept abstract behind the [NetConn] class.
    - The state of a connection of another type travels with the
      interface value that refers to it: a call through the interface
      hands back the interface value to keep, and the caller stores it in
      the [Conn] field again.
    - A call either returns, or panics on a nil dereference.  Method calls
      on the embedded interface are dispatched on the dynamic type; since a
      wrapper can embed another wrapper the dispatch is recursive, and the
      recursion is bounded by an explicit call depth.
    - [time.Now()] is an input of the calls that read the clock. *)

From stdpp Require Import base numbers option list.
From Stdlib Require Import ZArith Lia.
From Stdlib.Strings Require Import Byte.

Open Scope Z_scope.
Open Scope nat_scope.

(** ** Go run-time values *)

(** Error values that a stream connection hands out.  [error] is the Go
    interface type, whose [nil] is [None]. *)
Inductive goerror : Type :=
| io_EOF
| os_ErrDeadlineExceeded
| net_ErrClosed
| other_error (code : nat).

Definition error : Type := option goerror.

#[global] Instance goerror_eq_dec : EqDecision goerror.
Proof. solve_decision. Defined.

(** [time.Time] as an offset from the zero instant; [time.Time{}] is the
    zero instant, which the deadline setters read as "no deadline". *)
Definition Time : Type := Z.
Definition Duration : Type := Z.
Definition time_zero : Time := 0%Z.
Definition time_Add (t : Time) (d : Duration) : Time := (t + d)%Z.

(** Outcome of a call. [Stuck] is not a Go behaviour: it marks the call
    depth bound being reached. *)
Inductive result (A : Type) : Type :=
| Ret (a : A)
| NilDeref
| Stuck.
Arguments Ret {A} a.
Arguments NilDeref {A}.
Arguments Stuck {A}.

#[global] Instance result_bind : MBind result := λ A B f m,
  match m with
  | Ret a => f a
  | NilDeref => NilDeref
  | Stuck => Stuck
  end.

(** ** bytes.Buffer (standard library)

    Only the unread part of the buffer is modelled.  [Read] copies
    [min (len p) (len b)] bytes to the front of [p]; on an empty buffer
    it returns [io.EOF] unless [p] is empty. *)
Definition bytes_Buffer_Read (b p : list byte)
  : list byte * list byte * nat * error :=
  match b with
  | [] => if decide (length p = 0) then (b, p, 0, None)
          else (b, p, 0, Some io_EOF)
  | _ :: _ =>
      let n := length p `min` length b in
      (drop n b, take n b ++ drop n p, n, None)
  end.

Definition bytes_Buffer_Write (b p : list byte) : list byte := b ++ p.

(** [make([]byte, n)] *)
Definition make_bytes (n : nat) : list byte := replicate n x00.

(** ** net.Conn implementations other than the wrapper

    [conn_Read c k] is a [Read] into a buffer of length [k]: the bytes it
    stored at the front of the buffer, its error, and the connection
    afterwards.  A reader stores at most [k] bytes. *)
Class NetConn (C : Type) : Type := {
  conn_Read : C → nat → list byte * error * C;
  conn_SetReadDeadline : C → Time → error * C;
  conn_Read_len : ∀ c k, length (conn_Read c k).1.1 ≤ k
}.

Definition addr : Type := nat.

Section SocketConn.
Context {C : Type} `{!NetConn C}.

(** A [net.Conn] interface value. *)
Inductive netConn : Type :=
| nilConn
| otherConn (c : C)
| scConn (p : option addr).

(** [type socketConn struct { net.Conn; buf bytes.Buffer }] *)
Record socketConn : Type := mkSocketConn {
  Conn : netConn;
  buf : list byte
}.

Local Abbreviation heap := (list socketConn).

(** The zero value of the struct. *)
#[global] Instance socketConn_inhabited : Inhabited socketConn :=
  populate {| Conn := nilConn; buf := [] |}.

Definition alloc (h : heap) (s : socketConn) : heap * option addr :=
  (h ++ [s], Some (length h)).

Definition set_Conn (conn : netConn) (s : socketConn) : socketConn :=
  {| Conn := conn; buf := buf s |}.
Definition set_buf (b : list byte) (s : socketConn) : socketConn :=
  {| Conn := Conn s; buf := b |}.

Definition is_nilConn (conn : netConn) : bool :=
  match conn with nilConn => true | _ => false end.

(** ** Construction *)

(** [createSocketConnFromReturn(conn, err)] *)
Definition createSocketConnFromReturn (h : heap) (conn : netConn) (err : error)
  : heap * (option addr * error) :=
  match err with
  | Some e => (h, (None, Some e))
  | None =>
      let '(h', sc) := alloc h {| Conn := conn; buf := [] |} in
      (h', (sc, None))
  end.

(** [wrapSocketConn(conn)]: the type assertion to [*socketConn] succeeds
    on a nil pointer of that type as well. *)
Definition wrapSocketConn (h : heap) (conn : netConn) : heap * option addr :=
  match conn with
  | scConn sc => (h, sc)
  | _ => alloc h {| Conn := conn; buf := [] |}
  end.

(** [sc != nil && sc.Conn != nil]; an interface that holds a nil
    [*socketConn] is not the nil interface. *)
Definition isValid (h : heap) (sc : option addr) : bool :=
  match sc with
  | None => false
  | Some a => negb (is_nilConn (Conn (h !!! a)))
  end.

(** ** Calls through the embedded interface *)

(** [conn.SetReadDeadline(t)]: the interface value to keep and the heap.
    [socketConn] has no such method of its own: on a wrapper the call is
    promoted to the embedded [Conn].  The error that the setter returns is
    dropped by every caller in this file. *)
Fixpoint netConn_SetReadDeadline (depth : nat) (h : heap) (conn : netConn)
    (t : Time) {struct depth} : result (netConn * heap) :=
  match conn with
  | nilConn => NilDeref
  | otherConn c => Ret (otherConn (conn_SetReadDeadline c t).2, h)
  | scConn None => NilDeref
  | scConn (Some q) =>
      match depth with
      | 0 => Stuck
      | S d =>
          '(inner, h') ← netConn_SetReadDeadline d h (Conn (h !!! q)) t;
          Ret (scConn (Some q), alter (set_Conn inner) q h')
      end
  end.

Section Methods.
(** Call depth left for the promoted deadline setter, the timeout of
    the zero-length probe, and [Read] one call deeper. *)
Variable depth : nat.
Variable defaultTimeout : Duration.
Variable Read_rec :
  Time → heap → option addr → list byte → result (list byte * nat * error * heap).

(** [conn.Read(p)]: the buffer afterwards, the count, the error, the
    interface value to keep and the heap. *)
Definition netConn_Read (now : Time) (h : heap) (conn : netConn) (p : list byte)
  : result (list byte * nat * error * netConn * heap) :=
  match conn with
  | nilConn => NilDeref
  | otherConn c =>
      let '(data, err, c') := conn_Read c (length p) in
      Ret (data ++ drop (length data) p, length data, err, otherConn c', h)
  | scConn q =>
      '(p', n, err, h') ← Read_rec now h q p;
      Ret (p', n, err, scConn q, h')
  end.

(** [CheckReadable(timeout)]; [now] is the reading of [time.Now()]. *)
Definition CheckReadable_body (now : Time) (h : heap) (sc : option addr)
    (timeout : Duration) : result (error * heap) :=
  match sc with
  | None => NilDeref
  | Some a =>
      '(conn1, h1) ← netConn_SetReadDeadline depth h (Conn (h !!! a))
                        (time_Add now timeout);
      let h1 := alter (set_Conn conn1) a h1 in
      let buf0 := make_bytes 1 in
      '(buf1, n, err, h2) ← Read_rec now h1 sc buf0;
      let h3 :=
        if decide (0 < n)
        then alter (λ s, set_buf (bytes_Buffer_Write (buf s) buf1) s) a h2
        else h2 in
      '(conn2, h4) ← netConn_SetReadDeadline depth h3 (Conn (h3 !!! a))
                        time_zero;
      Ret (err, alter (set_Conn conn2) a h4)
  end.

(** Modelled from the spec: [checkConn] and [read0] are defined in the
    per-platform files, which are not part of the sources.  The probe
    is one bounded one-byte attempt ([CheckReadable] with the default
    timeout); a timeout means "alive, nothing pending" and is reported
    as no error, any other error is passed on. *)
Definition checkConn_body (now : Time) (h : heap) (sc : option addr)
  : result (error * heap) :=
  '(err, h') ← CheckReadable_body now h sc defaultTimeout;
  Ret (match err with
       | Some os_ErrDeadlineExceeded => None
       | _ => err
       end, h').

(** Modelled from the spec: [read0], the zero-length read, is the
    same probe as [checkConn]. *)
Definition read0_body (now : Time) (h : heap) (sc : option addr)
  : result (error * heap) :=
  checkConn_body now h sc.

(** [Read(p)]: the buffer afterwards, [n], [err] and the heap. *)
Definition Read_body (now : Time) (h : heap) (sc : option addr) (p : list byte)
  : result (list byte * nat * error * heap) :=
  if decide (length p = 0) then
    '(err, h') ← read0_body now h sc;
    Ret (p, 0, err, h')
  else
    match sc with
    | None => NilDeref
    | Some a =>
        let s := h !!! a in
        let '(b', p1, n, err) := bytes_Buffer_Read (buf s) p in
        let h1 := alter (set_buf b') a h in
        if decide (err ≠ None ∧ err ≠ Some io_EOF) then Ret (p1, n, err, h1)
        else if decide (n = length p) then Ret (p1, n, None, h1)
        else
          (* Continue reading from the wire. *)
          '(p2, newRead, err', conn', h2) ←
              netConn_Read now h1 (Conn (h1 !!! a)) (drop n p1);
          Ret (take n p1 ++ p2, n + newRead, err',
               alter (set_Conn conn') a h2)
    end.
End Methods.

(** ** The methods of [*socketConn] *)

Fixpoint Read (defaultTimeout : Duration) (depth : nat) {struct depth}
  : Time → heap → option addr → list byte → result (list byte * nat * error * heap) :=
  match depth with
  | 0 => λ _ _ _ _, Stuck
  | S d => Read_body d defaultTimeout (Read defaultTimeout d)
  end.

Definition CheckReadable (defaultTimeout : Duration) (depth : nat)
  : Time → heap → option addr → Duration → result (error * heap) :=
  CheckReadable_body depth (Read defaultTimeout depth).

Definition checkConn (defaultTimeout : Duration) (depth : nat)
  : Time → heap → option addr → result (error * heap) :=
  checkConn_body depth defaultTimeout (Read defaultTimeout depth).

Definition read0 (defaultTimeout : Duration) (depth : nat)
  : Time → heap → option addr → result (error * heap) :=
  read0_body depth defaultTimeout (Read defaultTimeout depth).

Definition IsOpen (defaultTimeout : Duration) (depth : nat) (now : Time)
    (h : heap) (sc : option addr) : result (bool * heap) :=
  if negb (isValid h sc) then Ret (false, h)
  else
    '(err, h') ← checkConn defaultTimeout depth now h sc;
    Ret (bool_decide (err = None), h').

End SocketConn.

Arguments netConn C : clear implicits.
Arguments socketConn C : clear implicits.

(** The heap of wrapper structs; a [*socketConn] is an address into it. *)
Abbreviation heap C := (list (socketConn C)).
(** The deadline setter of a connection, without its error. *)
Definition deadlined {C : Type} `{!NetConn C} (c : C) (t : Time) : C :=
  (conn_SetReadDeadline c t).2.

(** ** A client calling the wrapper *)

Inductive call : Type :=
| CallRead (now : Time) (p : list byte)
| CallCheckReadable (now : Time) (timeout : Duration).

Section Client.
Context {C : Type} `{!NetConn C}.
Variable dt : Duration.
Variable depth : nat.

(** One call on the wrapper [sc]; the bytes the caller received. *)
Definition do_call (h : heap C) (sc : option addr) (cl : call)
  : result (list byte * heap C) :=
  match cl with
  | CallRead now p =>
      '(p', n, _, h') ← Read dt depth now h sc p;
      Ret (take n p', h')
  | CallCheckReadable now timeout =>
      '(_, h') ← CheckReadable dt depth now h sc timeout;
      Ret ([], h')
  end.

(** A sequence of calls, errors notwithstanding; all bytes received. *)
Fixpoint run (h : heap C) (sc : option addr) (calls : list call)
  : result (list byte * heap C) :=
  match calls with
  | [] => Ret ([], h)
  | cl :: rest =>
      '(out1, h1) ← do_call h sc cl;
      '(out2, h2) ← run h1 sc rest;
      Ret (out1 ++ out2, h2)
  end.
End Client.

Definition positive_read (cl : call) : Prop :=
  match cl with
  | CallRead _ p => 0 < length p
  | CallCheckReadable _ _ => True
  end.

Definition requested (cl : call) : nat :=
  match cl with
  | CallRead _ p => length p
  | CallCheckReadable _ _ => 0
  end.

(** ** A connection to run the wrapper against

    One end of a connection on which the peer has written [wire].  A read
    hands over as much of the wire as fits into the buffer; the read that
    reaches the end of the wire reports [atEnd] (for instance [io.EOF]
    after the peer closed, or a timeout on an idle connection with a
    deadline).  The last deadline is recorded. *)
Record pipeConn : Type := mkPipe {
  wire : list byte;
  atEnd : error;
  readDeadline : Time
}.

Definition pipe_Read (c : pipeConn) (k : nat) : list byte * error * pipeConn :=
  (take k (wire c),
   if decide (length (wire c) ≤ k) then atEnd c else None,
   {| wire := drop k (wire c); atEnd := atEnd c; readDeadline := readDeadline c |}).

Definition pipe_SetReadDeadline (c : pipeConn) (t : Time) : error * pipeConn :=
  (None, {| wire := wire c; atEnd := atEnd c; readDeadline := t |}).

#[global] Instance pipe_NetConn : NetConn pipeConn.
Proof.
  refine {| conn_Read := pipe_Read; conn_SetReadDeadline := pipe_SetReadDeadline |}.
  intros c k. simpl. rewrite length_take. lia.
Defined.

(** ** Sample states *)

Definition is_socketConn {C : Type} (conn : netConn C) : bool :=
  match conn with scConn _ => true | _ => false end.

(** The peer wrote three bytes and closed. *)
Definition pipe123 : pipeConn :=
  {| wire := [x01; x02; x03]; atEnd := Some io_EOF; readDeadline := 0%Z |}.

(** The peer wrote one byte and closed. *)
Definition pipe1 : pipeConn :=
  {| wire := [x01]; atEnd := Some io_EOF; readDeadline := 0%Z |}.

Definition heap_fresh : heap pipeConn :=
  [{| Conn := otherConn pipe123; buf := [] |}].
Definition heap_last_byte : heap pipeConn :=
  [{| Conn := otherConn pipe1; buf := [] |}].
Definition heap_pending1 : heap pipeConn :=
  [{| Conn := otherConn pipe123; buf := [x0a] |}].
Definition heap_pending2 : heap pipeConn :=
  [{| Conn := otherConn pipe123; buf := [x0a; x0b] |}].
Definition heap_nilConn : heap pipeConn :=
  [{| Conn := nilConn; buf := [x0a] |}].

(** The wrapper at address 1 embeds the wrapper at address 0. *)
Definition heap_nested : heap pipeConn :=
  [{| Conn := otherConn pipe123; buf := [] |};
   {| Conn := scConn (Some 0); buf := [] |}].

(** Probes before, between and after two reads of one and two bytes. *)
Definition calls123 : list call :=
  [CallCheckReadable 100%Z 7%Z; CallRead 100%Z (make_bytes 1);
   CallCheckReadable 200%Z 7%Z; CallCheckReadable 300%Z 7%Z;
   CallRead 300%Z (make_bytes 2); CallCheckReadable 400%Z 7%Z].

(** ** Vocabulary for sequences of probes *)

(** [c'] is [c] after some calls of the deadline setter, and no read. *)
Inductive deadlines_only {C : Type} `{!NetConn C} : C → C → Prop :=
| deadlines_none (c : C) : deadlines_only c c
| deadlines_more (c : C) (t : Time) (c' : C) :
    deadlines_only (deadlined c t) c' → deadlines_only c c'.

Definition is_probe (cl : call) : Prop :=
  match cl with
  | CallRead _ _ => False
  | CallCheckReadable _ _ => True
  end.

(** A wrapper that embeds a nil [*socketConn]. *)
Definition heap_nil_pointer : heap pipeConn :=
  [{| Conn := scConn None; buf := [] |}].

(** ** A connection that hands over one byte at a time

    However large the buffer, a read stores at most one byte; at the end
    it reports [io.EOF]. *)
Record trickleConn : Type := mkTrickle { trickle : list byte }.

Definition trickle_Read (c : trickleConn) (k : nat)
  : list byte * error * trickleConn :=
  (take (k `min` 1) (trickle c),
   match trickle c with [] => Some io_EOF | _ :: _ => None end,
   {| trickle := drop (k `min` 1) (trickle c) |}).

Definition trickle_SetReadDeadline (c : trickleConn) (t : Time)
  : error * trickleConn := (None, c).

#[global] Instance trickle_NetConn : NetConn trickleConn.
Proof.
  refine {| conn_Read := trickle_Read;
            conn_SetReadDeadline := trickle_SetReadDeadline |}.
  intros c k. simpl. rewrite length_take. lia.
Defined.

Definition trickle123 : trickleConn := {| trickle := [x01; x02; x03] |}.

Definition heap_trickle : heap trickleConn :=
  [{| Conn := otherConn trickle123; buf := [] |}].

(** Two reads into two-byte buffers with a probe in between. *)
Definition calls_trickle : list call :=
  [CallRead 100%Z (make_bytes 2); CallCheckReadable 200%Z 7%Z;
   CallRead 300%Z (make_bytes 2)].

Definition probes3 : list call :=
  [CallCheckReadable 100%Z 7%Z; CallCheckReadable 200%Z 7%Z;
   CallCheckReadable 300%Z 7%Z].

(** The wrapper at address 1 embeds the wrapper at address 0, which has a
    byte pending. *)
Definition heap_nested_pending : heap pipeConn :=
  [{| Conn := otherConn pipe123; buf := [x0a] |};
   {| Conn := scConn (Some 0); buf := [] |}].

(** * Facts *)

(** ** Heap bookkeeping *)

Section HeapFacts.
Context {C : Type} `{!NetConn C}.
Implicit Types (h : heap C) (s : socketConn C) (a : addr).

Lemma alter_at h a s (f : socketConn C → socketConn C) :
  h !! a = Some s → alter f a h = <[a := f s]> h.
Proof.
  revert a. induction h as [|s0 h IH]; intros [|a] Hs; simplify_eq/=; try done.
  f_equal. by apply IH.
Qed.

Lemma lookup_total_at h a s : h !! a = Some s → h !!! a = s.
Proof. apply list_lookup_total_correct. Qed.

Lemma insert_at h a s s' : h !! a = Some s → <[a := s']> h !! a = Some s'.
Proof. intros Hs. apply list_lookup_insert_eq. by eapply lookup_lt_Some. Qed.

End HeapFacts.

(** ** The read path of a wrapper that owns a connection of another type *)

Section ReadPath.
Context {C : Type} `{!NetConn C}.
Variable dt : Duration.
Implicit Types (h : heap C) (a : addr) (c : C) (b p : list byte).

Lemma bytes_Buffer_Read_enough b p :
  0 < length p → length p ≤ length b →
  bytes_Buffer_Read b p = (drop (length p) b, take (length p) b, length p, None).
Proof.
  intros Hp Hle. destruct b as [|x b]; [simpl in Hle; lia|].
  unfold bytes_Buffer_Read. rewrite Nat.min_l by done.
  by rewrite drop_all, app_nil_r.
Qed.

Lemma bytes_Buffer_Read_short x b p :
  length (x :: b) < length p →
  bytes_Buffer_Read (x :: b) p
  = ([], (x :: b) ++ drop (length (x :: b)) p, length (x :: b), None).
Proof.
  intros Hlt. unfold bytes_Buffer_Read. rewrite Nat.min_r by lia.
  by rewrite drop_all, firstn_all.
Qed.

Lemma Read_pending h a (conn : netConn C) b p d now :
  h !! a = Some {| Conn := conn; buf := b |} →
  0 < length p → length p ≤ length b →
  Read dt (S d) now h (Some a) p
  = Ret (take (length p) b, length p, None,
         <[a := {| Conn := conn; buf := drop (length p) b |}]> h).
Proof.
  intros Ha Hp Hle. simpl. unfold Read_body.
  destruct (decide (length p = 0)) as [?|_]; [lia|].
  rewrite (lookup_total_at _ _ _ Ha). cbn [Conn buf].
  rewrite bytes_Buffer_Read_enough by done.
  rewrite (alter_at _ _ _ _ Ha). unfold set_buf. cbn [Conn buf].
  destruct (decide (_ ∧ _)) as [[? _]|_]; [done|].
  by destruct (decide (_ = _)).
Qed.

(** Pending does not fill the buffer: it is emptied into the front of the
    buffer and the embedded connection reads into what is left. *)
Lemma Read_remainder h a (conn : netConn C) b p d now :
  h !! a = Some {| Conn := conn; buf := b |} →
  length b < length p →
  Read dt (S d) now h (Some a) p
  = '(p2, newRead, err, conn', h2) ←
        netConn_Read (Read dt d) now (<[a := {| Conn := conn; buf := [] |}]> h)
          conn (drop (length b) p);
    Ret (b ++ p2, length b + newRead, err, alter (set_Conn conn') a h2).
Proof.
  intros Ha Hlt. simpl. unfold Read_body.
  destruct (decide (length p = 0)) as [?|_]; [lia|].
  rewrite (lookup_total_at _ _ _ Ha). cbn [Conn buf].
  assert (Hins : ∀ s, <[a := s]> h !! a = Some s)
    by (intros s; by eapply insert_at).
  destruct b as [|x b].
  - unfold bytes_Buffer_Read. cbn [length] in *.
    destruct (decide (length p = 0)) as [?|_]; [lia|].
    destruct (decide (_ ∧ _)) as [[_ ?]|_]; [done|].
    destruct (decide (0 = length p)) as [?|_]; [lia|].
    rewrite (alter_at _ _ _ _ Ha). unfold set_buf. cbn [Conn buf].
    by rewrite (lookup_total_at _ _ _ (Hins _)).
  - rewrite bytes_Buffer_Read_short by done.
    destruct (decide (_ ∧ _)) as [[? _]|_]; [done|].
    destruct (decide (_ = _)) as [?|_]; [lia|].
    rewrite (alter_at _ _ _ _ Ha). unfold set_buf. cbn [Conn buf].
    rewrite (lookup_total_at _ _ _ (Hins _)). cbn [Conn buf].
    by rewrite drop_app_length, take_app_length.
Qed.

Lemma Read_wire h a c b p d now data err c' :
  h !! a = Some {| Conn := otherConn c; buf := b |} →
  length b < length p →
  conn_Read c (length p - length b) = (data, err, c') →
  Read dt (S d) now h (Some a) p
  = Ret (b ++ data ++ drop (length b + length data) p,
         length b + length data, err,
         <[a := {| Conn := otherConn c'; buf := [] |}]> h).
Proof.
  intros Ha Hlt Hrd. rewrite (Read_remainder h a _ b p d now Ha Hlt).
  unfold netConn_Read. rewrite length_drop, Hrd. cbn [mbind result_bind].
  erewrite alter_at by by eapply insert_at.
  unfold set_Conn. cbn [Conn buf].
  by rewrite list_insert_insert_eq, drop_drop.
Qed.

End ReadPath.

(** ** The probe of a wrapper that owns a connection of another type *)

Section ProbePath.
Context {C : Type} `{!NetConn C}.
Variable dt : Duration.
Implicit Types (h : heap C) (a : addr) (c : C) (b p : list byte).

Lemma SetReadDeadline_other depth h c t :
  netConn_SetReadDeadline depth h (otherConn c) t
  = Ret (otherConn (deadlined c t), h).
Proof. by destruct depth. Qed.

(** A pending byte answers the probe: the wire is not read, and the byte
    taken from the front of the queue is written to its back. *)
Lemma CheckReadable_pending h a c x rest d now t :
  h !! a = Some {| Conn := otherConn c; buf := x :: rest |} →
  CheckReadable dt (S d) now h (Some a) t
  = Ret (None,
         <[a := {| Conn := otherConn (deadlined (deadlined c (time_Add now t)) time_zero);
                   buf := rest ++ [x] |}]> h).
Proof.
  intros Ha. unfold CheckReadable, CheckReadable_body.
  assert (Hins : ∀ s, <[a := s]> h !! a = Some s)
    by (intros s; by eapply insert_at).
  rewrite (lookup_total_at _ _ _ Ha). cbn [Conn buf].
  rewrite SetReadDeadline_other. cbn [mbind result_bind].
  rewrite (alter_at _ _ _ _ Ha). unfold set_Conn. cbn [Conn buf].
  rewrite (Read_pending dt _ a _ _ _ d now (Hins _)) by (simpl; lia).
  cbn [mbind result_bind make_bytes replicate length take drop].
  rewrite list_insert_insert_eq.
  destruct (decide (0 < 1)) as [_|?]; [|lia].
  rewrite (alter_at _ _ _ _ (Hins _)).
  rewrite list_insert_insert_eq, (lookup_total_at _ _ _ (Hins _)).
  cbn [Conn buf set_buf]. rewrite SetReadDeadline_other.
  cbn [mbind result_bind].
  rewrite (alter_at _ _ _ _ (Hins _)), list_insert_insert_eq.
  done.
Qed.

(** With nothing pending the probe asks the wire for one byte, under the
    deadline, and keeps what it got. *)
Lemma CheckReadable_wire h a c d now t data err c' :
  h !! a = Some {| Conn := otherConn c; buf := [] |} →
  conn_Read (deadlined c (time_Add now t)) 1 = (data, err, c') →
  CheckReadable dt (S d) now h (Some a) t
  = Ret (err,
         <[a := {| Conn := otherConn (deadlined c' time_zero); buf := data |}]> h).
Proof.
  intros Ha Hrd. unfold CheckReadable, CheckReadable_body.
  assert (Hins : ∀ s, <[a := s]> h !! a = Some s)
    by (intros s; by eapply insert_at).
  assert (Hlen : length data ≤ 1).
  { pose proof (conn_Read_len (deadlined c (time_Add now t)) 1) as Hl.
    by rewrite Hrd in Hl. }
  rewrite (lookup_total_at _ _ _ Ha). cbn [Conn buf].
  rewrite SetReadDeadline_other. cbn [mbind result_bind].
  rewrite (alter_at _ _ _ _ Ha). unfold set_Conn. cbn [Conn buf].
  rewrite (Read_wire dt _ a _ _ _ d now data err c' (Hins _))
    by (simpl; done || lia).
  cbn [mbind result_bind length]. rewrite list_insert_insert_eq.
  destruct data as [|y [|z data]]; [| |simpl in Hlen; lia].
  - cbn [length Nat.add]. destruct (decide (0 < 0)) as [?|_]; [lia|].
    rewrite (lookup_total_at _ _ _ (Hins _)). cbn [Conn buf].
    rewrite SetReadDeadline_other. cbn [mbind result_bind].
    by rewrite (alter_at _ _ _ _ (Hins _)), list_insert_insert_eq.
  - cbn [length Nat.add]. destruct (decide (0 < 1)) as [_|?]; [|lia].
    rewrite (alter_at _ _ _ _ (Hins _)).
    rewrite list_insert_insert_eq, (lookup_total_at _ _ _ (Hins _)).
    cbn [Conn buf set_buf]. rewrite SetReadDeadline_other.
    cbn [mbind result_bind].
    by rewrite (alter_at _ _ _ _ (Hins _)), list_insert_insert_eq.
Qed.

End ProbePath.

Section ClientFacts.
Context {C : Type} `{!NetConn C}.
Variable dt : Duration.
Implicit Types (h : heap C) (a : addr) (c : C) (b p : list byte).

Lemma Read_zero d now h sc p :
  length p = 0 →
  Read dt (S (S d)) now h sc p
  = '(err, h') ← CheckReadable dt (S d) now h sc dt;
    Ret (p, 0, match err with
               | Some os_ErrDeadlineExceeded => None
               | _ => err
               end, h').
Proof.
  intros Hp. change (Read dt (S (S d))) with (Read_body (S d) dt (Read dt (S d))).
  unfold Read_body. destruct (decide (length p = 0)) as [_|?]; [|done].
  unfold read0_body, checkConn_body.
  change (CheckReadable_body (S d) (Read dt (S d))) with (CheckReadable dt (S d)).
  by destruct (CheckReadable dt (S d) now h sc dt) as [[err h']| |].
Qed.

Lemma CheckReadable_owned h a c b d now t :
  h !! a = Some {| Conn := otherConn c; buf := b |} → length b ≤ 1 →
  ∃ err c' b',
    CheckReadable dt (S d) now h (Some a) t
    = Ret (err, <[a := {| Conn := otherConn c'; buf := b' |}]> h)
    ∧ length b' ≤ 1.
Proof.
  intros Ha Hb. destruct b as [|x [|y b]]; [| |simpl in Hb; lia].
  - destruct (conn_Read (deadlined c (time_Add now t)) 1) as [[data err] c'] eqn:Hrd.
    exists err, (deadlined c' time_zero), data. split.
    + by eapply CheckReadable_wire.
    + pose proof (conn_Read_len (deadlined c (time_Add now t)) 1) as Hl.
      by rewrite Hrd in Hl.
  - eexists _, _, _. split; [by eapply CheckReadable_pending|]. simpl. lia.
Qed.

Lemma Read_owned h a c b p d now :
  h !! a = Some {| Conn := otherConn c; buf := b |} → length b ≤ 1 →
  ∃ p' n err c' b',
    Read dt (S (S d)) now h (Some a) p
    = Ret (p', n, err, <[a := {| Conn := otherConn c'; buf := b' |}]> h)
    ∧ length b' ≤ 1.
Proof.
  intros Ha Hb. destruct (decide (length p = 0)) as [Hp|Hp].
  - rewrite Read_zero by done.
    destruct (CheckReadable_owned h a c b d now dt Ha Hb)
      as (err & c' & b' & -> & Hb').
    by eexists _, _, _, _, _.
  - destruct (decide (length p ≤ length b)) as [Hle|Hgt].
    + eexists _, _, _, _, _. split; [eapply Read_pending; done || lia|].
      rewrite length_drop. lia.
    + destruct (conn_Read c (length p - length b)) as [[data err] c'] eqn:Hrd.
      eexists _, _, _, _, _. split; [eapply Read_wire; done || lia|].
      simpl. lia.
Qed.

Lemma do_call_owned h a c b d cl :
  h !! a = Some {| Conn := otherConn c; buf := b |} → length b ≤ 1 →
  ∃ out c' b',
    do_call dt (S (S d)) h (Some a) cl
    = Ret (out, <[a := {| Conn := otherConn c'; buf := b' |}]> h)
    ∧ length b' ≤ 1.
Proof.
  intros Ha Hb. destruct cl as [now p|now t]; unfold do_call.
  - destruct (Read_owned h a c b p d now Ha Hb)
      as (p' & n & err & c' & b' & -> & Hb').
    by eexists _, _, _.
  - destruct (CheckReadable_owned h a c b (S d) now t Ha Hb)
      as (err & c' & b' & -> & Hb').
    by eexists _, _, _.
Qed.

Lemma run_owned h a c b d calls :
  h !! a = Some {| Conn := otherConn c; buf := b |} → length b ≤ 1 →
  ∃ out c' b',
    run dt (S (S d)) h (Some a) calls
    = Ret (out, <[a := {| Conn := otherConn c'; buf := b' |}]> h)
    ∧ length b' ≤ 1.
Proof.
  revert h c b. induction calls as [|cl calls IH]; intros h c b Ha Hb.
  - exists [], c, b. split; [|done]. simpl. by rewrite list_insert_id.
  - destruct (do_call_owned h a c b d cl Ha Hb) as (out1 & c1 & b1 & Hcl & Hb1).
    destruct (IH (<[a := {| Conn := otherConn c1; buf := b1 |}]> h) c1 b1)
      as (out2 & c2 & b2 & Hrun & Hb2); [by eapply insert_at|done|].
    exists (out1 ++ out2), c2, b2. split; [|done].
    cbn [run]. rewrite Hcl. cbn [mbind result_bind]. rewrite Hrun.
    cbn [mbind result_bind]. by rewrite list_insert_insert_eq.
Qed.

End ClientFacts.

(** ** A connection that delivers a byte sequence

    [stream c] is what the connection [c] has yet to deliver: a positive
    read takes as much of it as fits into the buffer, and setting a
    deadline leaves it alone.  Errors are not constrained. *)
Section Stream.
Context {C : Type} `{!NetConn C}.
Variable dt : Duration.
Variable stream : C → list byte.
Hypothesis stream_Read : ∀ c k, 0 < k →
  (conn_Read c k).1.1 = take k (stream c)
  ∧ stream (conn_Read c k).2 = drop k (stream c).
Hypothesis stream_deadline : ∀ c t, stream (deadlined c t) = stream c.
Implicit Types (h : heap C) (a : addr) (c : C) (b p : list byte).

Lemma stream_Read_eq c k data err c' :
  0 < k → conn_Read c k = (data, err, c') →
  data = take k (stream c) ∧ stream c' = drop k (stream c).
Proof.
  intros Hk Hrd. pose proof (stream_Read c k Hk) as Hs.
  by rewrite Hrd in Hs.
Qed.

Lemma do_call_stream h a c b d cl :
  h !! a = Some {| Conn := otherConn c; buf := b |} → length b ≤ 1 →
  positive_read cl →
  ∃ c' b',
    do_call dt (S d) h (Some a) cl
    = Ret (take (requested cl) (b ++ stream c),
           <[a := {| Conn := otherConn c'; buf := b' |}]> h)
    ∧ length b' ≤ 1
    ∧ b' ++ stream c' = drop (requested cl) (b ++ stream c).
Proof.
  intros Ha Hb Hpos. destruct cl as [now p|now t]; cbn [do_call requested].
  - simpl in Hpos. destruct b as [|x [|y b]]; [| |simpl in Hb; lia].
    + destruct (conn_Read c (length p - length (@nil byte)))
        as [[data err] c'] eqn:Hrd.
      rewrite (Read_wire dt h a c [] p d now data err c' Ha) by done.
      simpl in Hrd. rewrite Nat.sub_0_r in Hrd.
      destruct (stream_Read_eq _ _ _ _ _ Hpos Hrd) as [Hdata Hrest].
      exists c', []. cbn [mbind result_bind app length Nat.add].
      rewrite take_app_length, Hdata, Hrest. split_and!; done || lia.
    + destruct (decide (length p ≤ 1)) as [Hle|Hgt].
      * rewrite (Read_pending dt h a (otherConn c) [x] p d now Ha) by done.
        assert (length p = 1) as -> by lia.
        exists c, []. simpl. rewrite take_0, drop_0. split_and!; done || lia.
      * destruct (conn_Read c (length p - length [x]))
          as [[data err] c'] eqn:Hrd.
        rewrite (Read_wire dt h a c [x] p d now data err c' Ha)
          by (simpl; done || lia).
        simpl in Hrd. assert (0 < length p - 1) as Hk by lia.
        destruct (stream_Read_eq _ _ _ _ _ Hk Hrd) as [Hdata Hrest].
        exists c', []. cbn [mbind result_bind length].
        replace ([x] ++ data ++ drop (1 + length data) p)
          with ((x :: data) ++ drop (1 + length data) p) by done.
        change (1 + length data) with (length (x :: data)).
        rewrite take_app_length, Hdata, Hrest.
        destruct (length p) as [|k]; [lia|]. simpl.
        rewrite Nat.sub_0_r. split_and!; done || lia.
  - destruct b as [|x [|y b]]; [| |simpl in Hb; lia].
    + destruct (conn_Read (deadlined c (time_Add now t)) 1)
        as [[data err] c'] eqn:Hrd.
      rewrite (CheckReadable_wire dt h a c d now t data err c' Ha Hrd).
      destruct (stream_Read_eq _ 1 _ _ _ ltac:(lia) Hrd) as [Hdata Hrest].
      rewrite stream_deadline in Hdata, Hrest.
      exists (deadlined c' time_zero), data. cbn [mbind result_bind take].
      split; [done|]. split.
      * rewrite Hdata, length_take. lia.
      * rewrite stream_deadline, Hdata, Hrest. simpl. apply take_drop.
    + rewrite (CheckReadable_pending dt h a c x [] d now t Ha).
      eexists _, _. cbn [mbind result_bind take]. split; [done|].
      split; [simpl; lia|]. by rewrite !stream_deadline.
Qed.

Lemma run_stream h a c b d calls :
  h !! a = Some {| Conn := otherConn c; buf := b |} → length b ≤ 1 →
  Forall positive_read calls →
  ∃ c' b',
    run dt (S d) h (Some a) calls
    = Ret (take (sum_list (requested <$> calls)) (b ++ stream c),
           <[a := {| Conn := otherConn c'; buf := b' |}]> h)
    ∧ length b' ≤ 1
    ∧ b' ++ stream c' = drop (sum_list (requested <$> calls)) (b ++ stream c).
Proof.
  revert h c b. induction calls as [|cl calls IH]; intros h c b Ha Hb Hpos.
  - exists c, b. simpl. by rewrite list_insert_id.
  - apply Forall_cons in Hpos as [Hcl Hpos].
    destruct (do_call_stream h a c b d cl Ha Hb Hcl)
      as (c1 & b1 & Hstep & Hb1 & Hrest1).
    destruct (IH (<[a := {| Conn := otherConn c1; buf := b1 |}]> h) c1 b1)
      as (c2 & b2 & Hrun & Hb2 & Hrest2); [by eapply insert_at|done|done|].
    exists c2, b2. cbn [run]. rewrite Hstep. cbn [mbind result_bind].
    rewrite Hrun. cbn [mbind result_bind fmap list_fmap sum_list].
    rewrite list_insert_insert_eq, Hrest1, take_take_drop. split; [done|].
    split; [done|]. by rewrite Hrest2, Hrest1, drop_drop.
Qed.

End Stream.

(** ** A connection that may deliver less than was asked for

    Here a read takes some prefix of [stream c], of any length.  Whatever
    the calls, the bytes received, then the pending bytes, then what the
    connection has left, spell the original stream. *)
Section ShortReads.
Context {C : Type} `{!NetConn C}.
Variable dt : Duration.
Variable stream : C → list byte.
Hypothesis prefix_Read : ∀ c k, ∃ m,
  (conn_Read c k).1.1 = take m (stream c)
  ∧ stream (conn_Read c k).2 = drop m (stream c).
Hypothesis stream_deadline : ∀ c t, stream (deadlined c t) = stream c.
Implicit Types (h : heap C) (a : addr) (c : C) (b p : list byte).

Lemma prefix_Read_eq c k data err c' :
  conn_Read c k = (data, err, c') →
  data ++ stream c' = stream c.
Proof.
  intros Hrd. destruct (prefix_Read c k) as (m & Hdata & Hrest).
  rewrite Hrd in Hdata, Hrest. simpl in *. subst data.
  rewrite Hrest. apply take_drop.
Qed.

Lemma CheckReadable_conserves h a c b d now t :
  h !! a = Some {| Conn := otherConn c; buf := b |} → length b ≤ 1 →
  ∃ err c' b',
    CheckReadable dt (S d) now h (Some a) t
    = Ret (err, <[a := {| Conn := otherConn c'; buf := b' |}]> h)
    ∧ length b' ≤ 1
    ∧ b' ++ stream c' = b ++ stream c.
Proof.
  intros Ha Hb. destruct b as [|x [|y b]]; [| |simpl in Hb; lia].
  - destruct (conn_Read (deadlined c (time_Add now t)) 1)
      as [[data err] c'] eqn:Hrd.
    exists err, (deadlined c' time_zero), data.
    split; [by eapply CheckReadable_wire|]. split.
    + pose proof (conn_Read_len (deadlined c (time_Add now t)) 1) as Hl.
      by rewrite Hrd in Hl.
    + rewrite stream_deadline, (prefix_Read_eq _ _ _ _ _ Hrd).
      by rewrite stream_deadline.
  - eexists _, _, _. split; [by eapply CheckReadable_pending|].
    split; [simpl; lia|]. by rewrite !stream_deadline.
Qed.

Lemma do_call_conserves h a c b d cl :
  h !! a = Some {| Conn := otherConn c; buf := b |} → length b ≤ 1 →
  ∃ out c' b',
    do_call dt (S (S d)) h (Some a) cl
    = Ret (out, <[a := {| Conn := otherConn c'; buf := b' |}]> h)
    ∧ length b' ≤ 1
    ∧ out ++ b' ++ stream c' = b ++ stream c.
Proof.
  intros Ha Hb. destruct cl as [now p|now t]; cbn [do_call].
  - destruct (decide (length p = 0)) as [Hp|Hp].
    + rewrite Read_zero by done.
      destruct (CheckReadable_conserves h a c b d now dt Ha Hb)
        as (err & c' & b' & -> & Hb' & Hs).
      by exists [], c', b'.
    + destruct (decide (length p ≤ length b)) as [Hle|Hgt].
      * rewrite (Read_pending dt h a _ b p (S d) now Ha) by (done || lia).
        exists (take (length p) b), c, (drop (length p) b).
        cbn [mbind result_bind]. rewrite take_take, Nat.min_id.
        split; [done|]. split; [rewrite length_drop; lia|].
        by rewrite app_assoc, take_drop.
      * destruct (conn_Read c (length p - length b))
          as [[data err] c'] eqn:Hrd.
        rewrite (Read_wire dt h a c b p (S d) now data err c' Ha) by (done || lia).
        exists (b ++ data), c', []. cbn [mbind result_bind].
        rewrite app_assoc, <- length_app, take_app_length.
        split; [done|]. split; [simpl; lia|].
        rewrite <- app_assoc. cbn [app].
        by rewrite (prefix_Read_eq _ _ _ _ _ Hrd).
  - destruct (CheckReadable_conserves h a c b (S d) now t Ha Hb)
      as (err & c' & b' & -> & Hb' & Hs).
    by exists [], c', b'.
Qed.

Lemma run_conserves h a c b d calls :
  h !! a = Some {| Conn := otherConn c; buf := b |} → length b ≤ 1 →
  ∃ out c' b',
    run dt (S (S d)) h (Some a) calls
    = Ret (out, <[a := {| Conn := otherConn c'; buf := b' |}]> h)
    ∧ length b' ≤ 1
    ∧ out ++ b' ++ stream c' = b ++ stream c.
Proof.
  revert h c b. induction calls as [|cl calls IH]; intros h c b Ha Hb.
  - exists [], c, b. simpl. by rewrite list_insert_id.
  - destruct (do_call_conserves h a c b d cl Ha Hb)
      as (out1 & c1 & b1 & Hcl & Hb1 & Hs1).
    destruct (IH (<[a := {| Conn := otherConn c1; buf := b1 |}]> h) c1 b1)
      as (out2 & c2 & b2 & Hrun & Hb2 & Hs2); [by eapply insert_at|done|].
    exists (out1 ++ out2), c2, b2. cbn [run]. rewrite Hcl.
    cbn [mbind result_bind]. rewrite Hrun. cbn [mbind result_bind].
    rewrite list_insert_insert_eq. split; [done|]. split; [done|].
    by rewrite <- app_assoc, Hs2.
Qed.

End ShortReads.

(** * Construction *)

Section Construction.
Context {C : Type} `{!NetConn C}.
Implicit Types (h : heap C) (conn : netConn C).

(** C5. Wrapping is idempotent.  A connection that is already a wrapper
    is returned as it is, the same address, and nothing is allocated: no
    wrapper is nested in a new one.  Hence wrapping the wrapper that
    [wrapSocketConn] returned gives back the identical instance and leaves
    the heap alone, so that wrapping twice cannot be told apart from
    wrapping once. *)
Theorem wrapSocketConn_idempotent h conn :
  (∀ sc, wrapSocketConn h (scConn sc) = (h, sc))
  ∧ wrapSocketConn (wrapSocketConn h conn).1 (scConn (wrapSocketConn h conn).2)
    = ((wrapSocketConn h conn).1, (wrapSocketConn h conn).2).
Proof. split; [done|]. by destruct conn. Qed.

(** C6. With a non-nil error, [createSocketConnFromReturn] returns the nil
    wrapper and that same error, and allocates nothing. *)
Theorem createSocketConnFromReturn_error h conn (e : goerror) :
  createSocketConnFromReturn h conn (Some e) = (h, (None, Some e)).
Proof. done. Qed.

(** C7, as amended. With a nil error, [createSocketConnFromReturn] always
    allocates a new wrapper around the connection, with nothing pending,
    and returns it with a nil error; this is what [wrapSocketConn] returns
    whenever the connection is not itself a wrapper. *)
Theorem createSocketConnFromReturn_allocates h conn :
  createSocketConnFromReturn h conn None
  = (h ++ [{| Conn := conn; buf := [] |}], (Some (length h), None))
  ∧ (is_socketConn conn = false →
     createSocketConnFromReturn h conn None
     = ((wrapSocketConn h conn).1, ((wrapSocketConn h conn).2, None))).
Proof. split; [done|]. by destruct conn. Qed.

End Construction.

(** C7, counterexample. Handed the wrapper at address 0, with a nil error,
    [createSocketConnFromReturn] allocates a second wrapper at address 1
    around it, where [wrapSocketConn] returns address 0 itself. *)
Lemma createSocketConnFromReturn_rewraps :
  createSocketConnFromReturn heap_fresh (scConn (Some 0)) None
  = (heap_fresh ++ [{| Conn := scConn (Some 0); buf := [] |}], (Some 1, None))
  ∧ wrapSocketConn heap_fresh (scConn (Some 0)) = (heap_fresh, Some 0)
  ∧ createSocketConnFromReturn heap_fresh (scConn (Some 0)) None
    ≠ ((wrapSocketConn heap_fresh (scConn (Some 0))).1,
       ((wrapSocketConn heap_fresh (scConn (Some 0))).2, None)).
Proof. split_and!; [reflexivity|reflexivity|discriminate]. Qed.

Lemma createSocketConnFromReturn_allocates_witness :
  is_socketConn (otherConn pipe123) = false
  ∧ createSocketConnFromReturn heap_pending1 (otherConn pipe123) None
    = ((wrapSocketConn heap_pending1 (otherConn pipe123)).1,
       ((wrapSocketConn heap_pending1 (otherConn pipe123)).2, None)).
Proof.
  split; [reflexivity|].
  apply (createSocketConnFromReturn_allocates heap_pending1 (otherConn pipe123)).
  reflexivity.
Defined.

(** * Read and CheckReadable *)

Section Behaviour.
Context {C : Type} `{!NetConn C}.
Variable dt : Duration.
Implicit Types (h : heap C) (a : addr) (c : C) (b p : list byte).

(** C1. A positive-length [Read] first moves pending bytes, oldest first,
    to the front of the buffer.  If they fill the buffer the call returns
    [(len(buffer), nil)] at once, and the embedded connection is not
    called; otherwise the embedded connection reads into the rest of the
    buffer, and the call returns the sum of both counts with the error of
    that read. *)
Theorem Read_drains_pending_then_wire h a (conn : netConn C) b p d now :
  h !! a = Some {| Conn := conn; buf := b |} →
  0 < length p →
  Read dt (S d) now h (Some a) p
  = if decide (length p ≤ length b)
    then Ret (take (length p) b, length p, None,
              <[a := {| Conn := conn; buf := drop (length p) b |}]> h)
    else
      '(p2, newRead, err, conn', h2) ←
          netConn_Read (Read dt d) now (<[a := {| Conn := conn; buf := [] |}]> h)
            conn (drop (length b) p);
      Ret (b ++ p2, length b + newRead, err, alter (set_Conn conn') a h2).
Proof.
  intros Ha Hp. destruct (decide (length p ≤ length b)) as [Hle|Hgt].
  - by eapply Read_pending.
  - eapply Read_remainder; done || lia.
Qed.

(** C3. [CheckReadable] sets the read deadline of the connection to
    [now + timeout], reads into a one-byte buffer through [Read] (so that a
    pending byte is taken before the wire is tried), appends the byte that
    was read, if any, to the back of pending, sets the read deadline to the
    zero time whatever the read returned, and returns the error of that
    read. *)
Theorem CheckReadable_probe_steps h a c b d now t :
  h !! a = Some {| Conn := otherConn c; buf := b |} →
  ∃ p1 n err c1 b1,
    Read dt (S d) now
      (<[a := {| Conn := otherConn (deadlined c (time_Add now t)); buf := b |}]> h)
      (Some a) (make_bytes 1)
    = Ret (p1, n, err, <[a := {| Conn := otherConn c1; buf := b1 |}]> h)
    ∧ n ≤ 1
    ∧ (b ≠ [] → c1 = deadlined c (time_Add now t))
    ∧ CheckReadable dt (S d) now h (Some a) t
      = Ret (err,
             <[a := {| Conn := otherConn (deadlined c1 time_zero);
                       buf := b1 ++ take n p1 |}]> h).
Proof.
  intros Ha.
  assert (Hins : ∀ s, <[a := s]> h !! a = Some s)
    by (intros s; by eapply insert_at).
  destruct b as [|x rest].
  - destruct (conn_Read (deadlined c (time_Add now t)) 1)
      as [[data err] c'] eqn:Hrd.
    exists (data ++ drop (length data) (make_bytes 1)), (length data), err, c', [].
    split_and!.
    + erewrite Read_wire; [|apply Hins|simpl; lia|exact Hrd].
      by rewrite list_insert_insert_eq.
    + pose proof (conn_Read_len (deadlined c (time_Add now t)) 1) as Hl.
      by rewrite Hrd in Hl.
    + done.
    + rewrite take_app_length. by eapply CheckReadable_wire.
  - exists [x], 1, None, (deadlined c (time_Add now t)), rest.
    split_and!.
    + erewrite Read_pending; [|apply Hins|simpl; lia|simpl; lia].
      by rewrite list_insert_insert_eq.
    + done.
    + done.
    + by eapply CheckReadable_pending.
Qed.

(** C4. A byte that the probe read from the wire is not lost, whatever
    error came with it: it is pending after the probe, and it is the first
    byte that the next positive-length [Read] puts into its buffer. *)
Theorem CheckReadable_keeps_probed_byte h a c d now t x data err c' :
  h !! a = Some {| Conn := otherConn c; buf := [] |} →
  conn_Read (deadlined c (time_Add now t)) 1 = (x :: data, err, c') →
  ∃ h',
    CheckReadable dt (S d) now h (Some a) t = Ret (err, h')
    ∧ h' !! a = Some {| Conn := otherConn (deadlined c' time_zero); buf := [x] |}
    ∧ ∀ now' p, 0 < length p →
        ∃ p' n err' h'',
          Read dt (S d) now' h' (Some a) p = Ret (p', n, err', h'')
          ∧ 0 < n ∧ p' !! 0 = Some x.
Proof.
  intros Ha Hrd.
  assert (data = []) as ->.
  { pose proof (conn_Read_len (deadlined c (time_Add now t)) 1) as Hl.
    rewrite Hrd in Hl. destruct data; [done|simpl in Hl; lia]. }
  eexists. split; [by eapply CheckReadable_wire|].
  assert (Hx : <[a := {| Conn := otherConn (deadlined c' time_zero); buf := [x] |}]> h !! a
               = Some {| Conn := otherConn (deadlined c' time_zero); buf := [x] |})
    by by eapply insert_at.
  split; [done|]. intros now' p Hp.
  destruct (decide (length p ≤ 1)) as [Hle|Hgt].
  - eexists _, _, _, _. split; [by eapply Read_pending|].
    assert (length p = 1) as -> by lia. by split; [lia|].
  - destruct (conn_Read (deadlined c' time_zero) (length p - length [x]))
      as [[data2 err2] c2] eqn:Hrd2.
    eexists _, _, _, _. split; [eapply Read_wire; [done|simpl; lia|done]|].
    split; [simpl; lia|done].
Qed.

(** C8, as amended. Only [IsOpen] checks validity: on a nil wrapper, or
    on a wrapper whose connection is nil, it returns false.  A
    positive-length [Read] on a wrapper whose connection is nil completes
    when pending fills the buffer.  Otherwise [Read] and [CheckReadable]
    dereference what is absent: a positive-length [Read] or a
    [CheckReadable] on a nil wrapper, a [CheckReadable] on a nil connection
    and a positive-length [Read] that has to go to a nil connection all end
    in a nil dereference. *)
Theorem IsOpen_checks_validity_Read_CheckReadable_do_not h depth now :
  IsOpen dt depth now h None = Ret (false, h)
  ∧ (∀ a b, h !! a = Some {| Conn := nilConn; buf := b |} →
       IsOpen dt depth now h (Some a) = Ret (false, h))
  ∧ (∀ a b p, h !! a = Some {| Conn := nilConn; buf := b |} →
       0 < length p → length p ≤ length b →
       Read dt (S depth) now h (Some a) p
       = Ret (take (length p) b, length p, None,
              <[a := {| Conn := nilConn; buf := drop (length p) b |}]> h))
  ∧ (∀ p, 0 < length p → Read dt (S depth) now h None p = NilDeref)
  ∧ (∀ t, CheckReadable dt depth now h None t = NilDeref)
  ∧ (∀ a b t, h !! a = Some {| Conn := nilConn; buf := b |} →
       CheckReadable dt depth now h (Some a) t = NilDeref)
  ∧ (∀ a b p, h !! a = Some {| Conn := nilConn; buf := b |} →
       length b < length p →
       Read dt (S depth) now h (Some a) p = NilDeref).
Proof.
  split_and!.
  - done.
  - intros a b Ha. unfold IsOpen, isValid.
    by rewrite (lookup_total_at _ _ _ Ha).
  - intros a b p Ha Hp Hle. by eapply Read_pending.
  - intros p Hp. simpl. unfold Read_body.
    by destruct (decide (length p = 0)) as [?|_]; [lia|].
  - done.
  - intros a b t Ha. unfold CheckReadable, CheckReadable_body.
    rewrite (lookup_total_at _ _ _ Ha). cbn [Conn]. by destruct depth.
  - intros a b p Ha Hlt. by rewrite (Read_remainder dt h a _ b p depth now Ha Hlt).
Qed.

(** C9. On a wrapper with nothing pending, as the constructors return
    it, every sequence of [Read] and [CheckReadable] calls runs to its end,
    and at most one byte is pending afterwards. *)
Theorem pending_at_most_one h a c d calls :
  h !! a = Some {| Conn := otherConn c; buf := [] |} →
  ∃ out h' s,
    run dt (S (S d)) h (Some a) calls = Ret (out, h')
    ∧ h' !! a = Some s
    ∧ length (buf s) ≤ 1.
Proof.
  intros Ha.
  destruct (run_owned dt _ _ _ _ d calls Ha) as (out & c' & b' & Hrun & Hb');
    [simpl; lia|].
  eexists out, _, _. split; [exact Hrun|].
  split; [by eapply insert_at|done].
Qed.

(** C10. In every state that calls on a wrapper with nothing pending lead
    to, if bytes are pending then [CheckReadable] returns nil, does not read
    the connection, which only gets the two deadline calls, and leaves
    pending exactly as it was. *)
Theorem CheckReadable_pending_unchanged h0 h a c0 s d d' calls out now t :
  h0 !! a = Some {| Conn := otherConn c0; buf := [] |} →
  run dt (S (S d)) h0 (Some a) calls = Ret (out, h) →
  h !! a = Some s →
  buf s ≠ [] →
  ∃ c,
    Conn s = otherConn c
    ∧ CheckReadable dt (S d') now h (Some a) t
      = Ret (None,
             <[a := {| Conn := otherConn
                         (deadlined (deadlined c (time_Add now t)) time_zero);
                       buf := buf s |}]> h).
Proof.
  intros Ha0 Hrun Hs Hne.
  destruct (run_owned dt h0 a c0 [] d calls Ha0)
    as (out' & c & b & Hrun' & Hb); [simpl; lia|].
  rewrite Hrun in Hrun'. injection Hrun' as _ ->.
  rewrite (insert_at _ _ _ _ Ha0) in Hs. injection Hs as <-.
  cbn [Conn buf] in *. exists c. split; [done|].
  destruct b as [|x [|y b]]; [by destruct Hne| |simpl in Hb; lia].
  by rewrite (CheckReadable_pending dt _ a c x [] d' now t
                (insert_at _ _ _ _ Ha0)).
Qed.

End Behaviour.

(** * Stream integrity *)

Section StreamIntegrity.
Context {C : Type} `{!NetConn C}.
Variable dt : Duration.
Variable stream : C → list byte.
Hypothesis stream_Read : ∀ c k, 0 < k →
  (conn_Read c k).1.1 = take k (stream c)
  ∧ stream (conn_Read c k).2 = drop k (stream c).
Hypothesis stream_deadline : ∀ c t, stream (deadlined c t) = stream c.

(** C2. When the connection delivers the bytes [stream c], positive-length
    reads through a wrapper with nothing pending, whose buffer sizes add up
    to the length of [stream c], with [CheckReadable] calls anywhere in
    between, receive exactly [stream c], in order. *)
Theorem reads_yield_stream (h : heap C) a c d calls :
  h !! a = Some {| Conn := otherConn c; buf := [] |} →
  Forall positive_read calls →
  sum_list (requested <$> calls) = length (stream c) →
  ∃ h', run dt (S d) h (Some a) calls = Ret (stream c, h').
Proof.
  intros Ha Hpos Hsum.
  destruct (run_stream dt stream stream_Read stream_deadline _ _ _ _ d calls Ha)
    as (c' & b' & Hrun & _ & _); [simpl; lia|done|].
  eexists. rewrite Hrun, Hsum. cbn [app]. by rewrite firstn_all.
Qed.

End StreamIntegrity.

(** * The claims on sample states *)

Lemma pipe_wire_Read (c : pipeConn) k :
  0 < k →
  (conn_Read c k).1.1 = take k (wire c) ∧ wire (conn_Read c k).2 = drop k (wire c).
Proof. done. Qed.

Lemma pipe_wire_deadline (c : pipeConn) t : wire (deadlined c t) = wire c.
Proof. done. Qed.

Lemma reads_yield_stream_witness :
  wrapSocketConn [] (otherConn pipe123) = (heap_fresh, Some 0)
  ∧ heap_fresh !! 0 = Some {| Conn := otherConn pipe123; buf := [] |}
  ∧ Forall positive_read calls123
  ∧ sum_list (requested <$> calls123) = length (wire pipe123)
  ∧ ∃ h', run 5%Z 1 heap_fresh (Some 0) calls123 = Ret ([x01; x02; x03], h').
Proof.
  assert (Hpos : Forall positive_read calls123)
    by (repeat constructor; simpl; lia).
  split; [reflexivity|]. split; [reflexivity|].
  split; [exact Hpos|]. split; [reflexivity|].
  apply (reads_yield_stream 5%Z wire pipe_wire_Read pipe_wire_deadline
           heap_fresh 0 pipe123 0 calls123 eq_refl Hpos).
  reflexivity.
Defined.

Lemma pending_at_most_one_witness :
  wrapSocketConn [] (otherConn pipe123) = (heap_fresh, Some 0)
  ∧ heap_fresh !! 0 = Some {| Conn := otherConn pipe123; buf := [] |}
  ∧ ∃ out h' s,
      run 5%Z 2 heap_fresh (Some 0)
        (CallRead 50%Z [] :: calls123 ++ [CallRead 500%Z []])
      = Ret (out, h')
      ∧ h' !! 0 = Some s
      ∧ length (buf s) ≤ 1.
Proof.
  split; [reflexivity|]. split; [reflexivity|].
  apply (pending_at_most_one 5%Z heap_fresh 0 pipe123 0). reflexivity.
Defined.

Lemma Read_drains_pending_then_wire_witness :
  heap_pending1 !! 0 = Some {| Conn := otherConn pipe123; buf := [x0a] |}
  ∧ 0 < length (make_bytes 3)
  ∧ Read 5%Z 1 100%Z heap_pending1 (Some 0) (make_bytes 3)
    = Ret ([x0a; x01; x02], 3, None,
           [{| Conn := otherConn {| wire := [x03]; atEnd := Some io_EOF;
                                    readDeadline := 0%Z |};
               buf := [] |}]).
Proof.
  split; [reflexivity|]. split; [simpl; lia|].
  refine (eq_trans
            (Read_drains_pending_then_wire 5%Z heap_pending1 0
               (otherConn pipe123) [x0a] (make_bytes 3) 0 100%Z _ _) _);
    [reflexivity|simpl; lia|reflexivity].
Defined.

Lemma CheckReadable_probe_steps_witness :
  heap_fresh !! 0 = Some {| Conn := otherConn pipe123; buf := [] |}
  ∧ ∃ p1 n err c1 b1,
      Read 5%Z 1 100%Z
        (<[0 := {| Conn := otherConn (deadlined pipe123 (time_Add 100%Z 7%Z));
                   buf := [] |}]> heap_fresh)
        (Some 0) (make_bytes 1)
      = Ret (p1, n, err, <[0 := {| Conn := otherConn c1; buf := b1 |}]> heap_fresh)
      ∧ n ≤ 1
      ∧ ([] ≠ @nil byte → c1 = deadlined pipe123 (time_Add 100%Z 7%Z))
      ∧ CheckReadable 5%Z 1 100%Z heap_fresh (Some 0) 7%Z
        = Ret (err,
               <[0 := {| Conn := otherConn (deadlined c1 time_zero);
                         buf := b1 ++ take n p1 |}]> heap_fresh).
Proof.
  split; [reflexivity|].
  apply (CheckReadable_probe_steps 5%Z heap_fresh 0 pipe123 [] 0 100%Z 7%Z).
  reflexivity.
Defined.

Lemma CheckReadable_keeps_probed_byte_witness :
  heap_last_byte !! 0 = Some {| Conn := otherConn pipe1; buf := [] |}
  ∧ conn_Read (deadlined pipe1 (time_Add 100%Z 7%Z)) 1
    = ([x01], Some io_EOF,
       {| wire := []; atEnd := Some io_EOF; readDeadline := 107%Z |})
  ∧ ∃ h',
      CheckReadable 5%Z 1 100%Z heap_last_byte (Some 0) 7%Z = Ret (Some io_EOF, h')
      ∧ h' !! 0
        = Some {| Conn := otherConn
                    (deadlined {| wire := []; atEnd := Some io_EOF;
                                  readDeadline := 107%Z |} time_zero);
                  buf := [x01] |}
      ∧ ∀ now' p, 0 < length p →
          ∃ p' n err' h'',
            Read 5%Z 1 now' h' (Some 0) p = Ret (p', n, err', h'')
            ∧ 0 < n ∧ p' !! 0 = Some x01.
Proof.
  split; [reflexivity|]. split; [reflexivity|].
  apply (CheckReadable_keeps_probed_byte 5%Z heap_last_byte 0 pipe1 0 100%Z 7%Z
           x01 [] (Some io_EOF)
           {| wire := []; atEnd := Some io_EOF; readDeadline := 107%Z |});
    reflexivity.
Defined.

Lemma CheckReadable_pending_unchanged_witness :
  heap_fresh !! 0 = Some {| Conn := otherConn pipe123; buf := [] |}
  ∧ run 5%Z 2 heap_fresh (Some 0) [CallCheckReadable 50%Z 7%Z]
    = Ret ([], [{| Conn := otherConn {| wire := [x02; x03]; atEnd := Some io_EOF;
                                        readDeadline := 0%Z |};
                   buf := [x01] |}])
  ∧ [x01] ≠ @nil byte
  ∧ ∃ c,
      otherConn {| wire := [x02; x03]; atEnd := Some io_EOF;
                   readDeadline := 0%Z |} = otherConn c
      ∧ CheckReadable 5%Z 1 100%Z
          [{| Conn := otherConn {| wire := [x02; x03]; atEnd := Some io_EOF;
                                   readDeadline := 0%Z |};
              buf := [x01] |}] (Some 0) 7%Z
        = Ret (None,
               <[0 := {| Conn := otherConn
                           (deadlined (deadlined c (time_Add 100%Z 7%Z)) time_zero);
                         buf := [x01] |}]>
                 [{| Conn := otherConn {| wire := [x02; x03];
                                          atEnd := Some io_EOF;
                                          readDeadline := 0%Z |};
                     buf := [x01] |}]).
Proof.
  assert (Hne : [x01] ≠ @nil byte) by discriminate.
  split; [reflexivity|]. split; [reflexivity|]. split; [exact Hne|].
  exact (CheckReadable_pending_unchanged 5%Z heap_fresh
           [{| Conn := otherConn {| wire := [x02; x03]; atEnd := Some io_EOF;
                                    readDeadline := 0%Z |};
               buf := [x01] |}]
           0 pipe123
           {| Conn := otherConn {| wire := [x02; x03]; atEnd := Some io_EOF;
                                   readDeadline := 0%Z |};
              buf := [x01] |}
           0 0 [CallCheckReadable 50%Z 7%Z] [] 100%Z 7%Z
           eq_refl eq_refl eq_refl Hne).
Defined.

Lemma IsOpen_checks_validity_witness :
  heap_nilConn !! 0 = Some {| Conn := nilConn; buf := [x0a] |}
  ∧ length [x0a] < length (make_bytes 2)
  ∧ IsOpen 5%Z 1 100%Z heap_nilConn (Some 0) = Ret (false, heap_nilConn)
  ∧ CheckReadable 5%Z 1 100%Z heap_nilConn (Some 0) 7%Z = NilDeref
  ∧ Read 5%Z 2 100%Z heap_nilConn (Some 0) (make_bytes 2) = NilDeref.
Proof.
  assert (Ha : heap_nilConn !! 0 = Some {| Conn := @nilConn pipeConn; buf := [x0a] |})
    by reflexivity.
  assert (Hlt : length [x0a] < length (make_bytes 2)) by (simpl; lia).
  destruct (IsOpen_checks_validity_Read_CheckReadable_do_not 5%Z heap_nilConn 1 100%Z)
    as (_ & Hopen & _ & _ & _ & Hprobe & Hread).
  split; [exact Ha|]. split; [exact Hlt|].
  split; [exact (Hopen 0 [x0a] Ha)|].
  split; [exact (Hprobe 0 [x0a] 7%Z Ha)|].
  exact (Hread 0 [x0a] (make_bytes 2) Ha Hlt).
Defined.

(** C8, counterexample. [CheckReadable] on a wrapper whose connection is
    nil, and a positive-length [Read] on a nil wrapper, end in a nil
    dereference. *)
Lemma CheckReadable_nil_conn_panics :
  isValid heap_nilConn (Some 0) = false
  ∧ CheckReadable 5%Z 1 100%Z heap_nilConn (Some 0) 7%Z = NilDeref
  ∧ Read 5%Z 1 100%Z heap_nilConn None (make_bytes 1) = NilDeref.
Proof. split_and!; reflexivity. Qed.

(** A wrapper around a wrapper: calls pass through the inner wrapper to the
    connection, one call deeper; a probed byte stays in the outer wrapper. *)
Example Read_through_nested_wrapper :
  Read 5%Z 2 100%Z heap_nested (Some 1) (make_bytes 2)
  = Ret ([x01; x02], 2, None,
         [{| Conn := otherConn {| wire := [x03]; atEnd := Some io_EOF;
                                  readDeadline := 0%Z |};
             buf := [] |};
          {| Conn := scConn (Some 0); buf := [] |}]).
Proof. reflexivity. Qed.

Example Read_through_nested_wrapper_depth :
  Read 5%Z 1 100%Z heap_nested (Some 1) (make_bytes 2) = Stuck.
Proof. reflexivity. Qed.

Example CheckReadable_through_nested_wrapper :
  CheckReadable 5%Z 2 100%Z heap_nested (Some 1) 7%Z
  = Ret (None,
         [{| Conn := otherConn {| wire := [x02; x03]; atEnd := Some io_EOF;
                                  readDeadline := 0%Z |};
             buf := [] |};
          {| Conn := scConn (Some 0); buf := [x01] |}]).
Proof. reflexivity. Qed.

(** A zero-length read is the probe: it reports a live connection and
    keeps the byte that it read. *)
Example Read_zero_length_probes :
  Read 5%Z 2 100%Z heap_fresh (Some 0) []
  = Ret ([], 0, None,
         [{| Conn := otherConn {| wire := [x02; x03]; atEnd := Some io_EOF;
                                  readDeadline := 0%Z |};
             buf := [x01] |}]).
Proof. reflexivity. Qed.

(** * Further properties of the constructors *)

Section MoreConstruction.
Context {C : Type} `{!NetConn C}.
Implicit Types (h : heap C) (conn : netConn C).

(** X1. Wrapping a connection that is not a wrapper allocates at an
    address that was free, the new wrapper owns the connection and has
    nothing pending, and every wrapper that existed is left as it was. *)
Theorem wrapSocketConn_fresh h conn :
  is_socketConn conn = false →
  ∃ a,
    (wrapSocketConn h conn).2 = Some a
    ∧ h !! a = None
    ∧ (wrapSocketConn h conn).1 !! a = Some {| Conn := conn; buf := [] |}
    ∧ ∀ a' s, h !! a' = Some s → (wrapSocketConn h conn).1 !! a' = Some s.
Proof.
  intros Hc. exists (length h).
  destruct conn as [|c|sc]; [| |done]; cbn [wrapSocketConn alloc fst snd].
  all: split_and!;
    [done
    |by apply lookup_ge_None
    |by apply list_lookup_middle
    |intros a' s Hs; by apply lookup_app_l_Some].
Qed.

(** X2. The wrapper that [wrapSocketConn] returns is valid exactly when:
    never for the nil interface, always for a connection of another type,
    and for a wrapper when that wrapper was valid. *)
Theorem isValid_wrapSocketConn h conn :
  isValid (wrapSocketConn h conn).1 (wrapSocketConn h conn).2
  = match conn with
    | nilConn => false
    | otherConn _ => true
    | scConn sc => isValid h sc
    end.
Proof.
  destruct conn as [|c|sc]; cbn [wrapSocketConn alloc fst snd isValid];
    [| |done]; by rewrite list_lookup_total_middle.
Qed.

(** X3. With a nil error [createSocketConnFromReturn] returns a wrapper
    that is not nil, whatever the connection; the wrapper is valid exactly
    when the connection is not the nil interface; around the nil interface
    [IsOpen] returns false and changes nothing. *)
Theorem createSocketConnFromReturn_validity h conn :
  (∃ a, (createSocketConnFromReturn h conn None).2.1 = Some a)
  ∧ isValid (createSocketConnFromReturn h conn None).1
      (createSocketConnFromReturn h conn None).2.1
    = negb (is_nilConn conn)
  ∧ ∀ dt depth now,
      IsOpen dt depth now (createSocketConnFromReturn h nilConn None).1
        (createSocketConnFromReturn h nilConn None).2.1
      = Ret (false, (createSocketConnFromReturn h nilConn None).1).
Proof.
  cbn [createSocketConnFromReturn alloc fst snd]. split_and!.
  - by eexists.
  - unfold isValid. by rewrite list_lookup_total_middle.
  - intros dt depth now. unfold IsOpen, isValid.
    by rewrite list_lookup_total_middle.
Qed.

End MoreConstruction.

(** * Further properties of Read and CheckReadable *)

Section MoreBehaviour.
Context {C : Type} `{!NetConn C}.
Variable dt : Duration.
Implicit Types (h : heap C) (a q : addr) (c : C) (b p : list byte).

(** X4. A positive-length [Read] keeps to the contract of [io.Reader]: the
    buffer keeps its length, the count is at most that length, and it is
    at least the number of pending bytes that fit. *)
Theorem Read_count_bounds h a c b p d now :
  h !! a = Some {| Conn := otherConn c; buf := b |} →
  0 < length p →
  ∃ p' n err h',
    Read dt (S d) now h (Some a) p = Ret (p', n, err, h')
    ∧ length p' = length p
    ∧ length b `min` length p ≤ n ≤ length p.
Proof.
  intros Ha Hp. destruct (decide (length p ≤ length b)) as [Hle|Hgt].
  - eexists _, _, _, _. split; [by eapply Read_pending|].
    rewrite length_take. lia.
  - destruct (conn_Read c (length p - length b)) as [[data err] c'] eqn:Hrd.
    pose proof (conn_Read_len c (length p - length b)) as Hl.
    rewrite Hrd in Hl. simpl in Hl.
    eexists _, _, _, _. split; [eapply Read_wire; done || lia|].
    rewrite !length_app, length_drop. lia.
Qed.

(** X5. A positive-length [Read] only takes from pending: what is pending
    afterwards is what was pending without its first [len(p)] bytes. *)
Theorem Read_only_drains h a c b p d now :
  h !! a = Some {| Conn := otherConn c; buf := b |} →
  0 < length p →
  ∃ p' n err c',
    Read dt (S d) now h (Some a) p
    = Ret (p', n, err,
           <[a := {| Conn := otherConn c'; buf := drop (length p) b |}]> h).
Proof.
  intros Ha Hp. destruct (decide (length p ≤ length b)) as [Hle|Hgt].
  - eexists _, _, _, _. by eapply Read_pending.
  - destruct (conn_Read c (length p - length b)) as [[data err] c'] eqn:Hrd.
    eexists _, _, _, _. rewrite drop_ge by lia.
    eapply Read_wire; done || lia.
Qed.

(** X7. While one byte is pending, probes never read the connection: after
    any number of [CheckReadable] calls the same byte is pending, the
    caller has received nothing, and the connection has only seen calls of
    its deadline setter. *)
Theorem probes_keep_pending_byte h a c x d calls :
  h !! a = Some {| Conn := otherConn c; buf := [x] |} →
  Forall is_probe calls →
  ∃ c',
    run dt (S d) h (Some a) calls
    = Ret ([], <[a := {| Conn := otherConn c'; buf := [x] |}]> h)
    ∧ deadlines_only c c'.
Proof.
  revert h c. induction calls as [|cl calls IH]; intros h c Ha Hprobe.
  - exists c. split; [|constructor]. simpl. by rewrite list_insert_id.
  - apply Forall_cons in Hprobe as [Hcl Hprobe].
    destruct cl as [now p|now t]; [done|].
    destruct (IH (<[a := {| Conn := otherConn
                                (deadlined (deadlined c (time_Add now t)) time_zero);
                            buf := [x] |}]> h)
                (deadlined (deadlined c (time_Add now t)) time_zero))
      as (c' & Hrun & Hdl); [by eapply insert_at|done|].
    exists c'. split; [|by do 2 econstructor].
    cbn [run do_call]. rewrite (CheckReadable_pending dt h a c x [] d now t Ha).
    cbn [mbind result_bind app]. rewrite Hrun. cbn [mbind result_bind app].
    by rewrite list_insert_insert_eq.
Qed.

Lemma Read_passes_through h a q c b p d now :
  h !! a = Some {| Conn := scConn (Some q); buf := [] |} →
  h !! q = Some {| Conn := otherConn c; buf := b |} →
  0 < length p →
  Read dt (S (S d)) now h (Some a) p = Read dt (S d) now h (Some q) p.
Proof.
  intros Ha Hq Hp.
  assert (a ≠ q) as Hne by (intros ->; congruence).
  rewrite (Read_remainder dt h a _ [] p (S d) now Ha) by done.
  rewrite list_insert_id by done. cbn [length drop netConn_Read].
  assert (Hkeep : ∀ s, alter (set_Conn (scConn (Some q))) a (<[q := s]> h)
                       = <[q := s]> h).
  { intros s. erewrite alter_at; [|by rewrite list_lookup_insert_ne].
    apply list_insert_id. by rewrite list_lookup_insert_ne. }
  destruct (decide (length p ≤ length b)) as [Hle|Hgt].
  - rewrite (Read_pending dt h q _ b p d now Hq) by done.
    cbn [mbind result_bind app Nat.add]. rewrite Hkeep.
    symmetry. by apply Read_pending.
  - destruct (conn_Read c (length p - length b)) as [[data err] c'] eqn:Hrd.
    rewrite (Read_wire dt h q c b p d now data err c' Hq) by (done || lia).
    cbn [mbind result_bind app Nat.add]. rewrite Hkeep.
    symmetry. eapply Read_wire; [exact Hq|lia|exact Hrd].
Qed.

(** X8. A wrapper around a wrapper, with nothing pending of its own, is
    transparent to a positive-length [Read]: the call does what the same
    call on the inner wrapper does, one call deeper.  The outer wrapper
    still has nothing pending afterwards, and the bytes pending in the
    inner wrapper come first in the buffer. *)
Theorem Read_through_wrapper h a q c b p d now :
  h !! a = Some {| Conn := scConn (Some q); buf := [] |} →
  h !! q = Some {| Conn := otherConn c; buf := b |} →
  0 < length p →
  Read dt (S (S d)) now h (Some a) p = Read dt (S d) now h (Some q) p
  ∧ ∃ p' n err h',
      Read dt (S (S d)) now h (Some a) p = Ret (p', n, err, h')
      ∧ h' !! a = Some {| Conn := scConn (Some q); buf := [] |}
      ∧ take (length b `min` length p) p' = take (length p) b.
Proof.
  intros Ha Hq Hp.
  assert (a ≠ q) as Hne by (intros ->; congruence).
  split; [by eapply Read_passes_through|].
  rewrite (Read_passes_through h a q c b p d now Ha Hq Hp).
  destruct (decide (length p ≤ length b)) as [Hle|Hgt].
  - eexists _, _, _, _. split; [by eapply Read_pending|].
    split; [by rewrite list_lookup_insert_ne|].
    by rewrite Nat.min_r, take_take, Nat.min_id.
  - destruct (conn_Read c (length p - length b)) as [[data err] c'] eqn:Hrd.
    eexists _, _, _, _. split; [eapply Read_wire; [exact Hq|lia|exact Hrd]|].
    split; [by rewrite list_lookup_insert_ne|].
    rewrite Nat.min_l, take_app_length by lia. by rewrite take_ge by lia.
Qed.

(** X10. [isValid] accepts a wrapper whose interface holds a nil
    [*socketConn], but calls that go through the interface dereference the
    nil pointer: [CheckReadable], and a [Read] that pending does not fill,
    panic. *)
Theorem nil_pointer_in_interface h a b p d now t :
  h !! a = Some {| Conn := scConn None; buf := b |} →
  length b < length p →
  isValid h (Some a) = true
  ∧ CheckReadable dt d now h (Some a) t = NilDeref
  ∧ Read dt (S (S d)) now h (Some a) p = NilDeref.
Proof.
  intros Ha Hlt. split_and!.
  - unfold isValid. by rewrite (lookup_total_at _ _ _ Ha).
  - unfold CheckReadable, CheckReadable_body.
    rewrite (lookup_total_at _ _ _ Ha). cbn [Conn]. by destruct d.
  - rewrite (Read_remainder dt h a _ b p (S d) now Ha Hlt).
    cbn [netConn_Read Read]. unfold Read_body.
    destruct (decide _) as [Hz|_]; [|done].
    rewrite length_drop in Hz. lia.
Qed.

End MoreBehaviour.

(** * Short reads *)

Section Conservation.
Context {C : Type} `{!NetConn C}.
Variable dt : Duration.
Variable stream : C → list byte.
Hypothesis prefix_Read : ∀ c k, ∃ m,
  (conn_Read c k).1.1 = take m (stream c)
  ∧ stream (conn_Read c k).2 = drop m (stream c).
Hypothesis stream_deadline : ∀ c t, stream (deadlined c t) = stream c.
Implicit Types (h : heap C) (a : addr) (c : C) (b p : list byte).

Lemma do_call_conserves_positive h a c b d cl :
  h !! a = Some {| Conn := otherConn c; buf := b |} → length b ≤ 1 →
  positive_read cl →
  ∃ out c' b',
    do_call dt (S d) h (Some a) cl
    = Ret (out, <[a := {| Conn := otherConn c'; buf := b' |}]> h)
    ∧ length b' ≤ 1
    ∧ out ++ b' ++ stream c' = b ++ stream c.
Proof.
  intros Ha Hb Hpos. destruct cl as [now p|now t]; cbn [do_call].
  - simpl in Hpos. destruct (decide (length p ≤ length b)) as [Hle|Hgt].
    + rewrite (Read_pending dt h a _ b p d now Ha) by done.
      exists (take (length p) b), c, (drop (length p) b).
      cbn [mbind result_bind]. rewrite take_take, Nat.min_id.
      split; [done|]. split; [rewrite length_drop; lia|].
      by rewrite app_assoc, take_drop.
    + destruct (conn_Read c (length p - length b))
        as [[data err] c'] eqn:Hrd.
      rewrite (Read_wire dt h a c b p d now data err c' Ha) by (done || lia).
      exists (b ++ data), c', []. cbn [mbind result_bind].
      rewrite app_assoc, <- length_app, take_app_length.
      split; [done|]. split; [simpl; lia|].
      rewrite <- app_assoc. cbn [app].
      by rewrite (prefix_Read_eq stream prefix_Read _ _ _ _ _ Hrd).
  - destruct (CheckReadable_conserves dt stream prefix_Read stream_deadline
                h a c b d now t Ha Hb)
      as (err & c' & b' & -> & Hb' & Hs).
    by exists [], c', b'.
Qed.

(** X6. Also when the connection returns fewer bytes than asked for:
    after any sequence of positive-length reads and [CheckReadable] calls on
    a wrapper with nothing pending, the bytes received, then the pending
    bytes, then what the connection has yet to deliver are the stream that
    the connection had to deliver at the start.  No byte is lost,
    duplicated or moved. *)
Theorem stream_conserved h a c d calls :
  h !! a = Some {| Conn := otherConn c; buf := [] |} →
  Forall positive_read calls →
  ∃ out h' c' b',
    run dt (S d) h (Some a) calls = Ret (out, h')
    ∧ h' !! a = Some {| Conn := otherConn c'; buf := b' |}
    ∧ out ++ b' ++ stream c' = stream c.
Proof.
  intros Ha Hpos.
  enough (∀ calls h c b,
    h !! a = Some {| Conn := otherConn c; buf := b |} → length b ≤ 1 →
    Forall positive_read calls →
    ∃ out c' b',
      run dt (S d) h (Some a) calls
      = Ret (out, <[a := {| Conn := otherConn c'; buf := b' |}]> h)
      ∧ length b' ≤ 1
      ∧ out ++ b' ++ stream c' = b ++ stream c) as Hgen.
  { destruct (Hgen calls h c [] Ha) as (out & c' & b' & Hrun & _ & Hs);
      [simpl; lia|done|].
    exists out, (<[a := {| Conn := otherConn c'; buf := b' |}]> h), c', b'.
    split; [done|]. split; [by eapply insert_at|done]. }
  clear Ha Hpos. clear h c calls.
  intros calls. induction calls as [|cl calls IH]; intros h c b Ha Hb Hpos.
  - exists [], c, b. simpl. by rewrite list_insert_id.
  - apply Forall_cons in Hpos as [Hcl Hpos].
    destruct (do_call_conserves_positive h a c b d cl Ha Hb Hcl)
      as (out1 & c1 & b1 & Hstep & Hb1 & Hs1).
    destruct (IH (<[a := {| Conn := otherConn c1; buf := b1 |}]> h) c1 b1)
      as (out2 & c2 & b2 & Hrun & Hb2 & Hs2); [by eapply insert_at|done|done|].
    exists (out1 ++ out2), c2, b2. cbn [run]. rewrite Hstep.
    cbn [mbind result_bind]. rewrite Hrun. cbn [mbind result_bind].
    rewrite list_insert_insert_eq. split; [done|]. split; [done|].
    by rewrite <- app_assoc, Hs2.
Qed.

End Conservation.

(** * A probe through a wrapper around a wrapper *)

Section NestedProbe.
Context {C : Type} `{!NetConn C}.
Variable dt : Duration.
Implicit Types (h : heap C) (a q : addr) (c : C) (b p : list byte).

Lemma SetReadDeadline_wrapper d h q c b t :
  h !! q = Some {| Conn := otherConn c; buf := b |} →
  netConn_SetReadDeadline (S d) h (scConn (Some q)) t
  = Ret (scConn (Some q),
         <[q := {| Conn := otherConn (deadlined c t); buf := b |}]> h).
Proof.
  intros Hq. cbn [netConn_SetReadDeadline].
  rewrite (lookup_total_at _ _ _ Hq). cbn [Conn].
  rewrite SetReadDeadline_other. cbn [mbind result_bind].
  by rewrite (alter_at _ _ _ _ Hq).
Qed.

(** X9. [CheckReadable] on a wrapper around a wrapper, both with nothing
    pending: the deadline is set and cleared on the innermost connection,
    which is read for one byte; the byte is kept by the outer wrapper, and
    the error of that read is returned. *)
Theorem CheckReadable_through_wrapper h a q c d now t data err c' :
  h !! a = Some {| Conn := scConn (Some q); buf := [] |} →
  h !! q = Some {| Conn := otherConn c; buf := [] |} →
  conn_Read (deadlined c (time_Add now t)) 1 = (data, err, c') →
  CheckReadable dt (S (S d)) now h (Some a) t
  = Ret (err,
         <[a := {| Conn := scConn (Some q); buf := data |}]>
           (<[q := {| Conn := otherConn (deadlined c' time_zero); buf := [] |}]> h)).
Proof.
  intros Ha Hq Hrd.
  assert (a ≠ q) as Hne by (intros ->; congruence).
  assert (Hlen : length data ≤ 1).
  { pose proof (conn_Read_len (deadlined c (time_Add now t)) 1) as Hl.
    by rewrite Hrd in Hl. }
  assert (Hqin : ∀ s h0, h0 !! q = Some s → ∀ s', <[q := s']> h0 !! q = Some s')
    by (intros s h0 Hs s'; by eapply insert_at).
  assert (Hain : ∀ s, <[q := s]> h !! a
                      = Some {| Conn := scConn (Some q); buf := [] |})
    by (intros s; by rewrite list_lookup_insert_ne).
  unfold CheckReadable, CheckReadable_body.
  rewrite (lookup_total_at _ _ _ Ha). cbn [Conn].
  rewrite (SetReadDeadline_wrapper _ _ _ _ _ _ Hq). cbn [mbind result_bind].
  rewrite (alter_at _ _ _ _ (Hain _)). unfold set_Conn at 1. cbn [Conn buf].
  rewrite (list_insert_id _ _ _ (Hain _)).
  rewrite (Read_passes_through dt _ a q _ [] (make_bytes 1) d now
             (Hain _) (Hqin _ _ Hq _)) by (simpl; lia).
  rewrite (Read_wire dt _ q _ [] (make_bytes 1) d now data err c' (Hqin _ _ Hq _))
    by (simpl; done || lia).
  cbn [mbind result_bind length Nat.add app]. rewrite list_insert_insert_eq.
  destruct data as [|y [|z data]]; [| |simpl in Hlen; lia].
  - cbn [length]. destruct (decide (0 < 0)) as [?|_]; [lia|].
    rewrite (lookup_total_at _ _ _ (Hain _)). cbn [Conn].
    rewrite (SetReadDeadline_wrapper _ _ _ _ _ _ (Hqin _ _ Hq _)).
    cbn [mbind result_bind]. rewrite list_insert_insert_eq.
    rewrite (alter_at _ _ _ _ (Hain _)). unfold set_Conn. cbn [Conn buf].
    done.
  - cbn [length]. destruct (decide (0 < 1)) as [_|?]; [|lia].
    rewrite (alter_at _ _ _ _ (Hain _)). unfold set_buf, bytes_Buffer_Write.
    cbn [Conn buf app drop length].
    assert (Ha' : ∀ s0 s1, <[a := s1]> (<[q := s0]> h) !! a = Some s1)
      by (intros s0 s1; eapply insert_at; apply Hain).
    rewrite (lookup_total_at _ _ _ (Ha' _ _)). cbn [Conn].
    erewrite SetReadDeadline_wrapper;
      [|rewrite list_lookup_insert_ne by done; by eapply Hqin].
    cbn [mbind result_bind].
    erewrite alter_at;
      [|rewrite list_lookup_insert_ne by done; apply Ha'].
    unfold set_Conn. cbn [Conn buf].
    rewrite (list_insert_insert_ne _ q a) by done.
    by rewrite !list_insert_insert_eq.
Qed.

End NestedProbe.

(** * The further properties on sample states *)

Lemma wrapSocketConn_fresh_witness :
  is_socketConn (otherConn pipe123) = false
  ∧ ∃ a,
      (wrapSocketConn heap_pending1 (otherConn pipe123)).2 = Some a
      ∧ heap_pending1 !! a = None
      ∧ (wrapSocketConn heap_pending1 (otherConn pipe123)).1 !! a
        = Some {| Conn := otherConn pipe123; buf := [] |}
      ∧ ∀ a' s, heap_pending1 !! a' = Some s →
          (wrapSocketConn heap_pending1 (otherConn pipe123)).1 !! a' = Some s.
Proof.
  split; [reflexivity|].
  exact (wrapSocketConn_fresh heap_pending1 (otherConn pipe123) eq_refl).
Defined.

Lemma Read_count_bounds_witness :
  heap_pending1 !! 0 = Some {| Conn := otherConn pipe123; buf := [x0a] |}
  ∧ 0 < length (make_bytes 3)
  ∧ ∃ p' n err h',
      Read 5%Z 1 100%Z heap_pending1 (Some 0) (make_bytes 3) = Ret (p', n, err, h')
      ∧ length p' = length (make_bytes 3)
      ∧ length [x0a] `min` length (make_bytes 3) ≤ n ≤ length (make_bytes 3).
Proof.
  assert (Hp : 0 < length (make_bytes 3)) by (simpl; lia).
  split; [reflexivity|]. split; [exact Hp|].
  exact (Read_count_bounds 5%Z heap_pending1 0 pipe123 [x0a] (make_bytes 3)
           0 100%Z eq_refl Hp).
Defined.

Lemma Read_only_drains_witness :
  heap_pending2 !! 0 = Some {| Conn := otherConn pipe123; buf := [x0a; x0b] |}
  ∧ 0 < length (make_bytes 1)
  ∧ ∃ p' n err c',
      Read 5%Z 1 100%Z heap_pending2 (Some 0) (make_bytes 1)
      = Ret (p', n, err,
             <[0 := {| Conn := otherConn c'; buf := [x0b] |}]> heap_pending2).
Proof.
  assert (Hp : 0 < length (make_bytes 1)) by (simpl; lia).
  split; [reflexivity|]. split; [exact Hp|].
  exact (Read_only_drains 5%Z heap_pending2 0 pipe123 [x0a; x0b] (make_bytes 1)
           0 100%Z eq_refl Hp).
Defined.

Lemma trickle_prefix_Read (c : trickleConn) k :
  ∃ m, (conn_Read c k).1.1 = take m (trickle c)
       ∧ trickle (conn_Read c k).2 = drop m (trickle c).
Proof. by exists (k `min` 1). Qed.

Lemma trickle_deadline (c : trickleConn) t : trickle (deadlined c t) = trickle c.
Proof. done. Qed.

Lemma stream_conserved_witness :
  heap_trickle !! 0 = Some {| Conn := otherConn trickle123; buf := [] |}
  ∧ Forall positive_read calls_trickle
  ∧ run 5%Z 1 heap_trickle (Some 0) calls_trickle
    = Ret ([x01; x02; x03],
           [{| Conn := otherConn {| trickle := [] |}; buf := [] |}])
  ∧ ∃ out h' c' b',
      run 5%Z 1 heap_trickle (Some 0) calls_trickle = Ret (out, h')
      ∧ h' !! 0 = Some {| Conn := otherConn c'; buf := b' |}
      ∧ out ++ b' ++ trickle c' = trickle trickle123.
Proof.
  assert (Hpos : Forall positive_read calls_trickle)
    by (repeat constructor; simpl; lia).
  split; [reflexivity|]. split; [exact Hpos|]. split; [reflexivity|].
  exact (stream_conserved 5%Z trickle trickle_prefix_Read trickle_deadline
           heap_trickle 0 trickle123 0 calls_trickle eq_refl Hpos).
Defined.

Lemma probes_keep_pending_byte_witness :
  heap_pending1 !! 0 = Some {| Conn := otherConn pipe123; buf := [x0a] |}
  ∧ Forall is_probe probes3
  ∧ ∃ c',
      run 5%Z 1 heap_pending1 (Some 0) probes3
      = Ret ([], <[0 := {| Conn := otherConn c'; buf := [x0a] |}]> heap_pending1)
      ∧ deadlines_only pipe123 c'.
Proof.
  assert (Hprobe : Forall is_probe probes3) by (repeat constructor).
  split; [reflexivity|]. split; [exact Hprobe|].
  exact (probes_keep_pending_byte 5%Z heap_pending1 0 pipe123 x0a 0 probes3
           eq_refl Hprobe).
Defined.

Lemma Read_through_wrapper_witness :
  heap_nested_pending !! 1 = Some {| Conn := scConn (Some 0); buf := [] |}
  ∧ heap_nested_pending !! 0 = Some {| Conn := otherConn pipe123; buf := [x0a] |}
  ∧ 0 < length (make_bytes 2)
  ∧ Read 5%Z 2 100%Z heap_nested_pending (Some 1) (make_bytes 2)
    = Read 5%Z 1 100%Z heap_nested_pending (Some 0) (make_bytes 2)
  ∧ Read 5%Z 2 100%Z heap_nested_pending (Some 1) (make_bytes 2)
    = Ret ([x0a; x01], 2, None,
           [{| Conn := otherConn {| wire := [x02; x03]; atEnd := Some io_EOF;
                                    readDeadline := 0%Z |};
               buf := [] |};
            {| Conn := scConn (Some 0); buf := [] |}]).
Proof.
  assert (Hp : 0 < length (make_bytes 2)) by (simpl; lia).
  split; [reflexivity|]. split; [reflexivity|]. split; [exact Hp|].
  split; [|reflexivity].
  exact (proj1 (Read_through_wrapper 5%Z heap_nested_pending 1 0 pipe123 [x0a]
                  (make_bytes 2) 0 100%Z eq_refl eq_refl Hp)).
Defined.

Lemma CheckReadable_through_wrapper_witness :
  heap_nested !! 1 = Some {| Conn := scConn (Some 0); buf := [] |}
  ∧ heap_nested !! 0 = Some {| Conn := otherConn pipe123; buf := [] |}
  ∧ conn_Read (deadlined pipe123 (time_Add 100%Z 7%Z)) 1
    = ([x01], None,
       {| wire := [x02; x03]; atEnd := Some io_EOF; readDeadline := 107%Z |})
  ∧ CheckReadable 5%Z 2 100%Z heap_nested (Some 1) 7%Z
    = Ret (None,
           [{| Conn := otherConn {| wire := [x02; x03]; atEnd := Some io_EOF;
                                    readDeadline := 0%Z |};
               buf := [] |};
            {| Conn := scConn (Some 0); buf := [x01] |}]).
Proof.
  split; [reflexivity|]. split; [reflexivity|]. split; [reflexivity|].
  refine (eq_trans
            (CheckReadable_through_wrapper 5%Z heap_nested 1 0 pipe123 0
               100%Z 7%Z [x01] None
               {| wire := [x02; x03]; atEnd := Some io_EOF;
                  readDeadline := 107%Z |} _ _ _) _); reflexivity.
Defined.

Lemma nil_pointer_in_interface_witness :
  heap_nil_pointer !! 0 = Some {| Conn := scConn None; buf := [] |}
  ∧ length (@nil byte) < length (make_bytes 1)
  ∧ isValid heap_nil_pointer (Some 0) = true
  ∧ CheckReadable 5%Z 1 100%Z heap_nil_pointer (Some 0) 7%Z = NilDeref
  ∧ Read 5%Z 3 100%Z heap_nil_pointer (Some 0) (make_bytes 1) = NilDeref.
Proof.
  assert (Hlt : length (@nil byte) < length (make_bytes 1)) by (simpl; lia).
  split; [reflexivity|]. split; [exact Hlt|].
  exact (nil_pointer_in_interface 5%Z heap_nil_pointer 0 [] (make_bytes 1)
           1 100%Z 7%Z eq_refl Hlt).
Defined.
